(** * setup.py: line chunker, chunk identifiers and per-chunk insertion

    A shallow embedding of [src/setup.py]: the document-type inference
    [infer_doc_type], the line-by-line chunk builder, the per-chunk
    insertion loop and the loop over the files of [main].

    Text model.  A Python [str] is a sequence of code points; here a
    character is an [ascii], read as the code point U+0000..U+00FF it
    numbers, and a [str] is a [list ascii].  [len] is [length], [+] on
    strings is [++].  The builtins the script calls ([lower], [in],
    [split], [strip], [replace], integer formatting) are written out below
    with the behaviour CPython has on that range of code points. *)

From Stdlib Require Import Ascii String DecimalString DecimalNat.
From Stdlib Require Import List Arith Lia Bool.
Import ListNotations.

Local Open Scope list_scope.
Local Open Scope nat_scope.

(** ** Python strings *)

Definition str := list ascii.

(** A string literal of the script. *)
Definition lit (s : string) : str := list_ascii_of_string s.

(** ["\n"], U+000A. *)
Definition NL : ascii := ascii_of_nat 10.

(** Truth value of a [str] in a condition: the empty string is false. *)
Definition truthy (s : str) : bool :=
  match s with
  | [] => false
  | _ :: _ => true
  end.

(** [c.isspace()] for one code point below U+0100: U+0009..U+000D,
    U+001C..U+0020, U+0085 and U+00A0.  This is the set [str.strip()]
    removes when called without argument. *)
Definition isspace (c : ascii) : bool :=
  let n := nat_of_ascii c in
  ((9 <=? n) && (n <=? 13)) || ((28 <=? n) && (n <=? 32))
  || (n =? 133) || (n =? 160).

(** [c.lower()] for one code point below U+0100: the letters A..Z and the
    capital letters U+00C0..U+00DE, the multiplication sign U+00D7 apart,
    move up by 32; every other code point is its own lower case. *)
Definition lower_char (c : ascii) : ascii :=
  let n := nat_of_ascii c in
  if ((65 <=? n) && (n <=? 90))
     || ((192 <=? n) && (n <=? 222) && negb (n =? 215))
  then ascii_of_nat (n + 32)
  else c.

(** [s.lower()]. *)
Definition lower (s : str) : str := map lower_char s.

(** [s.startswith(p)]. *)
Fixpoint startswith (p s : str) : bool :=
  match p, s with
  | [], _ => true
  | _ :: _, [] => false
  | a :: p', b :: s' => Ascii.eqb a b && startswith p' s'
  end.

(** [p in s]: [p] occurs in [s] as a contiguous substring. *)
Fixpoint contains (p s : str) : bool :=
  startswith p s ||
  match s with
  | [] => false
  | _ :: s' => contains p s'
  end.

(** [s.replace(a, b)] for one-character [a] and [b]. *)
Definition replace (a b : ascii) (s : str) : str :=
  map (fun c => if Ascii.eqb c a then b else c) s.

(** [s.lstrip()], [s.rstrip()] and [s.strip()]. *)
Fixpoint lstrip (s : str) : str :=
  match s with
  | [] => []
  | c :: s' => if isspace c then lstrip s' else s
  end.

Definition rstrip (s : str) : str := rev (lstrip (rev s)).

Definition strip (s : str) : str := rstrip (lstrip s).

(** [s.split("\n")]: the pieces between the newlines; never empty, and
    [[""]] for the empty string. *)
Fixpoint split (s : str) : list str :=
  match s with
  | [] => [[]]
  | c :: s' =>
      if Ascii.eqb c NL then [] :: split s'
      else match split s' with
           | [] => [[c]]
           | l :: ls => (c :: l) :: ls
           end
  end.

(** [f"{n}"] for a non-negative integer: decimal digits, no leading zero. *)
Definition str_of_nat (n : nat) : str :=
  lit (NilEmpty.string_of_uint (Nat.to_uint n)).

(** ** Configuration *)

Definition CHUNK_SIZE : nat := 150.

(** ** [infer_doc_type] *)

Definition infer_doc_type (filename : str) : str :=
  let f := lower filename in
  if contains (lit "gdpr") f then lit "GDPR"
  else if contains (lit "hipaa") f then lit "HIPAA"
  else if contains (lit "soc2") f then lit "SOC2"
  else lit "General".

(** ** The chunk builder of [main]

    The body of the [for txt_file in ...] loop up to the leftover flush.
    The script compares against the module constant [CHUNK_SIZE]; the
    builder below takes the threshold as [size] so that it can be stated
    for any threshold, and [chunk_file] fixes it to [CHUNK_SIZE]. *)

Record meta := mkMeta {
  filename : str;
  document_type : str;
  chunk_index : nat
}.

(** The variables the line loop reads and writes. *)
Record builder := mkBuilder {
  chunks : list str;
  ids : list str;
  metas : list meta;
  current : str;
  chunk_idx : nat
}.

Definition builder0 : builder := mkBuilder [] [] [] [] 0.

(** [f"{safe_name}_{chunk_idx}"] with
    [safe_name = txt_file.name.replace(".", "_")]. *)
Definition chunk_id (name : str) (idx : nat) : str :=
  replace "."%char "_"%char name ++ lit "_" ++ str_of_nat idx.

(** Append one chunk with its id and metadata (the three [append] calls). *)
Definition emit (name doc_type chunk_text : str) (b : builder) : builder :=
  mkBuilder (chunks b ++ [chunk_text])
            (ids b ++ [chunk_id name (chunk_idx b)])
            (metas b ++ [mkMeta name doc_type (chunk_idx b)])
            (current b)
            (chunk_idx b).

(** One iteration of [for line in lines]. *)
Definition step (size : nat) (name doc_type : str) (b : builder) (line : str)
  : builder :=
  let cur := current b ++ line ++ [NL] in
  if size <=? length cur then
    let chunk_text := strip cur in
    if truthy chunk_text then
      let b' := emit name doc_type chunk_text b in
      mkBuilder (chunks b') (ids b') (metas b') [] (S (chunk_idx b))
    else
      mkBuilder (chunks b) (ids b) (metas b) [] (chunk_idx b)
  else
    mkBuilder (chunks b) (ids b) (metas b) cur (chunk_idx b).

(** The leftover flush after the loop. *)
Definition flush (name doc_type : str) (b : builder) : builder :=
  if truthy (strip (current b)) then
    emit name doc_type (strip (current b)) b
  else b.

(** The three lists the builder hands to the insertion loop. *)
Definition build (size : nat) (name text : str) : builder :=
  let doc_type := infer_doc_type name in
  let lines := split text in
  flush name doc_type (fold_left (step size name doc_type) lines builder0).

Definition chunk_file (name text : str) : builder := build CHUNK_SIZE name text.

(** ** The insertion loop of [main]

    [collection.add] belongs to the vector store, which is not part of the
    script: the store is a type [Store] and [add] a function of the store
    and the entry that either returns or raises an [Exception] whose text
    is [e]; both leave a store behind.  What [except Exception] does not
    catch (an interrupt, an exit) ends the script and is no result of
    [add] here. *)

Inductive add_result (Store : Type) : Type :=
| Added (s : Store)
| Raised (s : Store) (e : str).

Arguments Added {Store} s.
Arguments Raised {Store} s e.

Definition store_after {Store : Type} (r : add_result Store) : Store :=
  match r with
  | Added s => s
  | Raised s _ => s
  end.

(** The variables of the insertion loop, with the lines it prints. *)
Record inserter (Store : Type) := mkInserter {
  collection : Store;
  inserted : nat;
  printed : list str
}.

Arguments mkInserter {Store} _ _ _.
Arguments collection {Store} _.
Arguments inserted {Store} _.
Arguments printed {Store} _.

(** [f"  Warning: skipped chunk {i}: {e}"] and [f"  Stored {inserted} chunks"]. *)
Definition warning_line (i : nat) (e : str) : str :=
  lit "  Warning: skipped chunk " ++ str_of_nat i ++ lit ": " ++ e.

Definition stored_line (n : nat) : str :=
  lit "  Stored " ++ str_of_nat n ++ lit " chunks".

(** The text of the [IndexError] a list subscript out of range raises. *)
Definition index_error : str := lit "list index out of range".

Section Insertion.

Variable Store : Type.
Variable add : Store -> str -> str -> meta -> add_result Store.

(** One iteration of [for i in range(len(chunks))]: the subscripts are
    evaluated inside the [try], so a missing element is skipped with a
    warning like any other exception. *)
Definition insert_one (b : builder) (st : inserter Store) (i : nat)
  : inserter Store :=
  match nth_error (ids b) i, nth_error (chunks b) i, nth_error (metas b) i with
  | Some id, Some doc, Some m =>
      match add (collection st) id doc m with
      | Added s => mkInserter s (S (inserted st)) (printed st)
      | Raised s e =>
          mkInserter s (inserted st) (printed st ++ [warning_line i e])
      end
  | _, _, _ =>
      mkInserter (collection st) (inserted st)
                 (printed st ++ [warning_line i index_error])
  end.

(** The loop, then [print(f"  Stored {inserted} chunks")]. *)
Definition insert_chunks (b : builder) (s : Store) : inserter Store :=
  let st := fold_left (insert_one b) (seq 0 (length (chunks b)))
                      (mkInserter s 0 []) in
  mkInserter (collection st) (inserted st)
             (printed st ++ [stored_line (inserted st)]).

(** What iteration [i] hands to [add], when the three lists reach [i]. *)
Definition entry_at (b : builder) (i : nat) : option (str * str * meta) :=
  match nth_error (ids b) i, nth_error (chunks b) i, nth_error (metas b) i with
  | Some id, Some doc, Some m => Some (id, doc, m)
  | _, _, _ => None
  end.

(** The store before iteration [i], when every earlier iteration has run:
    each entry before [i] has been handed to [add], in order, and the
    store is what the last call left. *)
Fixpoint store_before (b : builder) (s : Store) (i : nat) : Store :=
  match i with
  | 0 => s
  | S j =>
      match entry_at b j with
      | Some (id, doc, m) => store_after (add (store_before b s j) id doc m)
      | None => store_before b s j
      end
  end.

(** The result of the call of [add] in iteration [i] of that run. *)
Definition call_at (b : builder) (s : Store) (i : nat)
  : option (add_result Store) :=
  match entry_at b i with
  | Some (id, doc, m) => Some (add (store_before b s i) id doc m)
  | None => None
  end.

(** The iterations below [n] that add to the count, and the warnings those
    below [n] print. *)
Definition counts (b : builder) (s : Store) (i : nat) : bool :=
  match call_at b s i with
  | Some (Added _) => true
  | _ => false
  end.

Definition warns (b : builder) (s : Store) (i : nat) : list str :=
  match call_at b s i with
  | Some (Added _) => []
  | Some (Raised _ e) => [warning_line i e]
  | None => [warning_line i index_error]
  end.

End Insertion.

Arguments insert_one {Store} add b st i.
Arguments insert_chunks {Store} add b s.
Arguments store_before {Store} add b s i.
Arguments call_at {Store} add b s i.
Arguments counts {Store} add b s i.
Arguments warns {Store} add b s i.

(** ** Runs of lines, following the specification's words

    Lines are accumulated, each with its newline, until the running
    character count reaches [size]; the run is then closed.  What is left
    when the lines end is the remainder. *)

Definition glue (r : list str) : str :=
  concat (map (fun l => l ++ [NL]) r).

Fixpoint runs_from (size : nat) (acc lines : list str)
  : list (list str) * list str :=
  match lines with
  | [] => ([], acc)
  | l :: ls =>
      if size <=? length (glue (acc ++ [l])) then
        let (rs, rem) := runs_from size [] ls in ((acc ++ [l]) :: rs, rem)
      else runs_from size (acc ++ [l]) ls
  end.

(** A closed run: it reaches [size], and no shorter non-empty start of it
    does. *)
Definition closed_run (size : nat) (r : list str) : Prop :=
  r <> [] /\
  size <= length (glue r) /\
  (forall p q, r = p ++ q -> p <> [] -> q <> [] -> length (glue p) < size).

(** The text a run contributes: trimmed, and nothing when that is empty. *)
Definition trimmed (r : list str) : str := strip (glue r).

Definition nonspace (c : ascii) : bool := negb (isspace c).

(** ** Properties of the builder used in the proofs *)

(** What holds of the three lists whenever the builder is observed: the
    [k]-th id and metadata carry the index [k], and every chunk is a
    non-empty trimmed text. *)
Definition numbered (name doc_type : str) (b : builder) : Prop :=
  ids b = map (chunk_id name) (seq 0 (length (chunks b))) /\
  metas b = map (mkMeta name doc_type) (seq 0 (length (chunks b))) /\
  Forall (fun c => truthy c = true /\ strip c = c) (chunks b).

(** Inside the line loop the counter is the number of chunks so far. *)
Definition counted (b : builder) : Prop :=
  chunk_idx b = length (chunks b).

(** A run still open: every non-empty start of [acc] is shorter than
    [size]. *)
Definition open_run (size : nat) (acc : list str) : Prop :=
  forall p q, acc = p ++ q -> p <> [] -> length (glue p) < size.

(** ** Words of the specification about [infer_doc_type] *)

(** [p] occurs in [s]: some text, then [p], then some text. *)
Definition occurs (p s : str) : Prop :=
  exists u v, s = u ++ p ++ v.

(** Two characters that differ at most in case. *)
Definition case_variant (a b : ascii) : Prop :=
  lower_char a = lower_char b.

(** The rule as the specification words it: the keywords are looked up in
    the file name as it is written. *)
Definition substring_rule (filename : str) : str :=
  if contains (lit "gdpr") filename then lit "GDPR"
  else if contains (lit "hipaa") filename then lit "HIPAA"
  else if contains (lit "soc2") filename then lit "SOC2"
  else lit "General".

(** The capital of a small letter that has one below U+0100 (a..z and
    U+00E0..U+00FE, the division sign U+00F7 apart); any other character
    is left as it is. *)
Definition upper_char (c : ascii) : ascii :=
  let n := nat_of_ascii c in
  if ((97 <=? n) && (n <=? 122))
     || ((224 <=? n) && (n <=? 254) && negb (n =? 247))
  then ascii_of_nat (n - 32)
  else c.

(** The answers of [infer_doc_type]. *)
Definition doc_types : list str :=
  [lit "GDPR"; lit "HIPAA"; lit "SOC2"; lit "General"].

(** ** A sample store *)

(** A store to run the loop on: the list of the entries added so far, and
    an [add] that raises on a document holding the word bad. *)
Definition shelf : Type := list (str * str * meta).

Definition shelf_add (s : shelf) (id doc : str) (m : meta) : add_result shelf :=
  if contains (lit "bad") doc then Raised s (lit "rejected")
  else Added (s ++ [(id, doc, m)]).

(** An [add] that never raises: every entry goes on the shelf. *)
Definition shelf_put (s : shelf) (id doc : str) (m : meta) : add_result shelf :=
  Added (s ++ [(id, doc, m)]).

(** ** The loop of [main] over the files

    [sample_path.glob] and [read_text] belong to the file system: the files
    come as the list of their names and texts, in the order the glob yields
    them.  The loop threads the collection, the counter [total_chunks] and
    the lines printed. *)

Record run (Store : Type) := mkRun {
  db : Store;
  total_chunks : nat;
  output : list str
}.

Arguments mkRun {Store} _ _ _.
Arguments db {Store} _.
Arguments total_chunks {Store} _.
Arguments output {Store} _.

(** [f"\n  Loading: {txt_file.name}"] and [f"  Created {len(chunks)} chunks"]. *)
Definition loading_line (name : str) : str :=
  [NL] ++ lit "  Loading: " ++ name.

Definition created_line (n : nat) : str :=
  lit "  Created " ++ str_of_nat n ++ lit " chunks".

Section Files.

Variable Store : Type.
Variable add : Store -> str -> str -> meta -> add_result Store.

(** The body of [for txt_file in sample_path.glob("*.txt")]. *)
Definition process_file (st : run Store) (file : str * str) : run Store :=
  let (name, text) := file in
  let b := chunk_file name text in
  let r := insert_chunks add b (db st) in
  mkRun (collection r)
        (total_chunks st + inserted r)
        (output st ++ [loading_line name; created_line (length (chunks b))]
                   ++ printed r).

(** The whole loop, from [total_chunks = 0]. *)
Definition process_files (files : list (str * str)) (s : Store) : run Store :=
  fold_left process_file files (mkRun s 0 []).

End Files.

Arguments process_file {Store} add st file.
Arguments process_files {Store} add files s.

(** The number of chunks the files give, all together. *)
Definition chunk_total (files : list (str * str)) : nat :=
  list_sum (map (fun f => length (chunks (chunk_file (fst f) (snd f)))) files).

(** * Facts about the string operations *)

Lemma NL_isspace : isspace NL = true.
Proof. reflexivity. Qed.

Lemma truthy_true (s : str) : truthy s = true <-> s <> [].
Proof. destruct s; simpl; split; congruence. Qed.

Lemma truthy_false (s : str) : truthy s = false <-> s = [].
Proof. destruct s; simpl; split; congruence. Qed.

Lemma truthy_length (s : str) : truthy s = true -> 1 <= length s.
Proof. destruct s; simpl; [discriminate | lia]. Qed.

(** *** [lstrip] *)

Lemma lstrip_head (s : str) :
  lstrip s = [] \/ exists c t, lstrip s = c :: t /\ isspace c = false.
Proof.
  induction s as [| c s IH]; simpl; [now left |].
  destruct (isspace c) eqn:E; [exact IH |].
  right. now exists c, s.
Qed.

Lemma lstrip_fixed (c : ascii) (t : str) :
  isspace c = false -> lstrip (c :: t) = c :: t.
Proof. intros H. simpl. now rewrite H. Qed.

Lemma lstrip_idem (s : str) : lstrip (lstrip s) = lstrip s.
Proof.
  destruct (lstrip_head s) as [E | (c & t & E & Hc)]; rewrite E;
    [reflexivity | now apply lstrip_fixed].
Qed.

Lemma lstrip_spaces (s : str) : forallb isspace s = true -> lstrip s = [].
Proof.
  induction s as [| c s IH]; simpl; [reflexivity |].
  destruct (isspace c); simpl; [exact IH | discriminate].
Qed.

Lemma lstrip_nil_spaces (s : str) : lstrip s = [] -> forallb isspace s = true.
Proof.
  induction s as [| c s IH]; simpl; [reflexivity |].
  destruct (isspace c); simpl; [exact IH | discriminate].
Qed.

Lemma lstrip_app (s t : str) :
  lstrip (s ++ t) = if forallb isspace s then lstrip t else lstrip s ++ t.
Proof.
  induction s as [| c s IH]; simpl; [reflexivity |].
  destruct (isspace c); simpl; [exact IH | reflexivity].
Qed.

Lemma lstrip_nonspace (s : str) :
  filter nonspace (lstrip s) = filter nonspace s.
Proof.
  induction s as [| c s IH]; simpl; [reflexivity |].
  destruct (isspace c) eqn:E; [| reflexivity].
replace (nonspace c) with false by (unfold nonspace; now rewrite E).
exact IH.
Qed.

(** *** [rstrip] and [strip] *)

Lemma rstrip_nil : rstrip [] = [].
Proof. reflexivity. Qed.

Lemma rstrip_cons (c : ascii) (t : str) :
  isspace c = false -> rstrip (c :: t) = c :: rstrip t.
Proof.
  intros H. unfold rstrip. simpl rev at 2.
  rewrite lstrip_app.
  destruct (forallb isspace (rev t)) eqn:E.
  - rewrite (lstrip_spaces _ E). simpl. now rewrite H.
  - now rewrite rev_app_distr.
Qed.

Lemma rstrip_snoc_space (s : str) (c : ascii) :
  isspace c = true -> rstrip (s ++ [c]) = rstrip s.
Proof.
  intros H. unfold rstrip. rewrite rev_app_distr. simpl. now rewrite H.
Qed.

Lemma rstrip_idem (s : str) : rstrip (rstrip s) = rstrip s.
Proof.
  unfold rstrip. now rewrite rev_involutive, lstrip_idem.
Qed.

Lemma rstrip_nonspace (s : str) :
  filter nonspace (rstrip s) = filter nonspace s.
Proof.
  unfold rstrip.
  rewrite filter_rev, lstrip_nonspace, <- filter_rev.
  now rewrite rev_involutive.
Qed.

Lemma strip_lstrip_fixed (s : str) : lstrip (strip s) = strip s.
Proof.
  unfold strip.
  destruct (lstrip_head s) as [E | (c & t & E & Hc)]; rewrite E;
    [reflexivity |].
  rewrite (rstrip_cons _ _ Hc). now apply lstrip_fixed.
Qed.

Lemma strip_idem (s : str) : strip (strip s) = strip s.
Proof.
  unfold strip at 1. rewrite strip_lstrip_fixed.
  unfold strip. apply rstrip_idem.
Qed.

Lemma strip_nonspace (s : str) :
  filter nonspace (strip s) = filter nonspace s.
Proof. unfold strip. now rewrite rstrip_nonspace, lstrip_nonspace. Qed.

Lemma strip_snoc_space (s : str) (c : ascii) :
  isspace c = true -> strip (s ++ [c]) = strip s.
Proof.
  intros H. unfold strip. rewrite lstrip_app.
  destruct (forallb isspace s) eqn:E.
  - rewrite (lstrip_spaces _ E). simpl. now rewrite H.
  - now apply rstrip_snoc_space.
Qed.

Lemma strip_spaces (s : str) : forallb isspace s = true -> strip s = [].
Proof. intros H. unfold strip. now rewrite (lstrip_spaces _ H). Qed.

Lemma strip_nil_nonspace (s : str) :
  truthy (strip s) = false -> filter nonspace s = [].
Proof.
  intros H. apply truthy_false in H.
  rewrite <- strip_nonspace, H. reflexivity.
Qed.

(** *** [split] and [glue] *)

Lemma split_not_nil (s : str) : split s <> [].
Proof.
  induction s as [| c s IH]; simpl; [discriminate |].
  destruct (Ascii.eqb c NL); [discriminate |].
  destruct (split s); discriminate.
Qed.

Lemma split_single (s : str) : ~ In NL s -> split s = [s].
Proof.
  induction s as [| c s IH]; simpl; intros H; [reflexivity |].
  destruct (Ascii.eqb_spec c NL) as [-> | Hc]; [exfalso; now apply H; left |].
  rewrite IH; [reflexivity | intros Hin; apply H; now right].
Qed.

Lemma glue_app (r1 r2 : list str) : glue (r1 ++ r2) = glue r1 ++ glue r2.
Proof. unfold glue. now rewrite map_app, concat_app. Qed.

Lemma glue_cons (l : str) (r : list str) : glue (l :: r) = l ++ NL :: glue r.
Proof. unfold glue. simpl. now rewrite <- app_assoc. Qed.

Lemma glue_snoc (r : list str) (l : str) : glue (r ++ [l]) = glue r ++ l ++ [NL].
Proof. rewrite glue_app. unfold glue at 2. simpl. now rewrite app_nil_r. Qed.

Lemma glue_split (s : str) : glue (split s) = s ++ [NL].
Proof.
  induction s as [| c s IH]; simpl; [reflexivity |].
  destruct (Ascii.eqb_spec c NL) as [-> | Hc].
  - rewrite glue_cons, IH. reflexivity.
  - destruct (split s) as [| l ls] eqn:E; [now destruct (split_not_nil s) |].
    rewrite glue_cons in *. simpl. now rewrite IH.
Qed.

Lemma glue_length_prefix (p q : list str) :
  length (glue p) <= length (glue (p ++ q)).
Proof. rewrite glue_app, length_app. lia. Qed.

(** * Facts about the chunk builder *)

Section BuilderFacts.

Variable size : nat.
Variables name doc_type : str.

Lemma numbered_emit (b : builder) (c : str) :
  numbered name doc_type b -> counted b -> truthy (strip c) = true ->
  numbered name doc_type (emit name doc_type (strip c) b).
Proof.
  intros (Hi & Hm & Hc) Hn Ht. unfold numbered, counted in *. simpl.
  rewrite length_app, Nat.add_1_r, seq_S, !map_app. simpl.
  rewrite Hn, <- Hi, <- Hm. repeat split.
  apply Forall_app. split; [exact Hc |].
  constructor; [| constructor]. split; [exact Ht | apply strip_idem].
Qed.

Lemma step_invariant (b : builder) (line : str) :
  numbered name doc_type b -> counted b ->
  numbered name doc_type (step size name doc_type b line) /\
  counted (step size name doc_type b line).
Proof.
  intros Hb Hn. unfold step.
  destruct (size <=? _); [| now split].
  destruct (truthy _) eqn:Ht; [| now split].
  split.
  - exact (numbered_emit b _ Hb Hn Ht).
  - unfold counted in *. simpl. rewrite length_app, Hn. simpl. lia.
Qed.

Lemma loop_invariant (lines : list str) (b : builder) :
  numbered name doc_type b -> counted b ->
  numbered name doc_type (fold_left (step size name doc_type) lines b)
  /\ counted (fold_left (step size name doc_type) lines b).
Proof.
  revert b. induction lines as [| l ls IH]; intros b Hb Hn; simpl;
    [now split |].
  destruct (step_invariant b l Hb Hn) as [Hb' Hn']. now apply IH.
Qed.

Lemma flush_invariant (b : builder) :
  numbered name doc_type b -> counted b -> numbered name doc_type (flush name doc_type b).
Proof.
  intros Hb Hn. unfold flush.
  destruct (truthy _) eqn:Ht; [| exact Hb].
  exact (numbered_emit b _ Hb Hn Ht).
Qed.

(** The loop and the runs of lines: the builder that holds the glued
    lines [acc] ends with one chunk per closed run that trims to something,
    holding the glued remainder. *)
Lemma loop_runs (lines acc : list str) (b : builder) :
  current b = glue acc ->
  let b' := fold_left (step size name doc_type) lines b in
  chunks b' =
    chunks b ++ filter truthy (map trimmed (fst (runs_from size acc lines)))
  /\ current b' = glue (snd (runs_from size acc lines)).
Proof.
  revert acc b. induction lines as [| l ls IH]; intros acc b Hcur; simpl.
  - now rewrite app_nil_r.
  - unfold step at 2 4. rewrite Hcur, <- glue_snoc.
    destruct (size <=? length (glue (acc ++ [l]))) eqn:Hsz.
    + destruct (runs_from size [] ls) as [rs rem] eqn:Hr. simpl.
      unfold trimmed at 1 3.
      destruct (truthy (strip (glue (acc ++ [l])))) eqn:Ht.
      * match goal with
        | |- context [fold_left _ ls ?b0] =>
            destruct (IH [] b0 eq_refl) as [H1 H2]
        end.
        rewrite Hr in H1, H2. simpl in H1, H2.
        rewrite H1, H2, <- app_assoc. now split.
      * match goal with
        | |- context [fold_left _ ls ?b0] =>
            destruct (IH [] b0 eq_refl) as [H1 H2]
        end.
        rewrite Hr in H1, H2. simpl in H1, H2.
        rewrite H1, H2. now split.
    + match goal with
      | |- context [fold_left _ ls ?b0] =>
          destruct (IH (acc ++ [l]) b0 eq_refl) as [H1 H2]
      end.
      simpl in H1. now split.
Qed.

Lemma open_run_nil : open_run size [].
Proof.
  intros p q H Hp. symmetry in H. apply app_eq_nil in H. tauto.
Qed.

Lemma open_run_snoc (acc : list str) (l : str) :
  open_run size acc -> length (glue (acc ++ [l])) < size -> open_run size (acc ++ [l]).
Proof.
  intros Ho Hlt p q H Hp.
  pose proof (glue_length_prefix p q) as Hle. rewrite <- H in Hle. lia.
Qed.

Lemma closed_run_snoc (acc : list str) (l : str) :
  open_run size acc -> size <= length (glue (acc ++ [l])) ->
  closed_run size (acc ++ [l]).
Proof.
  intros Ho Hge. repeat split.
  - intros H. apply app_eq_nil in H. destruct H; discriminate.
  - exact Hge.
  - intros p q H Hp Hq.
    destruct (exists_last Hq) as (q' & x & ->).
    rewrite app_assoc in H. apply app_inj_tail in H. destruct H as [H _].
    exact (Ho p q' H Hp).
Qed.

Lemma runs_from_sound (lines acc : list str) :
  open_run size acc ->
  let (rs, rem) := runs_from size acc lines in
  concat rs ++ rem = acc ++ lines /\
  Forall (closed_run size) rs /\
  open_run size rem.
Proof.
  revert acc. induction lines as [| l ls IH]; intros acc Ho; simpl.
  - rewrite app_nil_r. repeat split; [constructor | exact Ho].
  - destruct (size <=? length (glue (acc ++ [l]))) eqn:Hsz.
    + apply Nat.leb_le in Hsz.
      specialize (IH [] open_run_nil).
      destruct (runs_from size [] ls) as [rs rem].
      destruct IH as (Hc & Hf & Hr). simpl. repeat split.
      * rewrite <- !app_assoc, Hc. reflexivity.
      * constructor; [now apply closed_run_snoc | exact Hf].
      * exact Hr.
    + apply Nat.leb_gt in Hsz.
      specialize (IH (acc ++ [l]) (open_run_snoc acc l Ho Hsz)).
      destruct (runs_from size (acc ++ [l]) ls) as [rs rem].
      destruct IH as (Hc & Hf & Hr). repeat split; try assumption.
      rewrite Hc, <- app_assoc. reflexivity.
Qed.

End BuilderFacts.

(** * The builder as a whole *)

Lemma builder0_numbered (name doc_type : str) :
  numbered name doc_type builder0 /\ counted builder0.
Proof. repeat split. constructor. Qed.

Lemma build_numbered (size : nat) (name text : str) :
  numbered name (infer_doc_type name) (build size name text).
Proof.
  unfold build.
  destruct (builder0_numbered name (infer_doc_type name)) as [H0 H1].
  destruct (loop_invariant size name (infer_doc_type name) (split text)
              builder0 H0 H1) as [H2 H3].
  now apply flush_invariant.
Qed.

(** The last element of the run list is the remainder; it is treated like
    a closed run: trimmed, and kept when something is left. *)
Lemma build_runs (size : nat) (name text : str) :
  chunks (build size name text) =
    filter truthy (map trimmed (fst (runs_from size [] (split text)))) ++
    (if truthy (trimmed (snd (runs_from size [] (split text))))
     then [trimmed (snd (runs_from size [] (split text)))] else []).
Proof.
  unfold build.
  destruct (loop_runs size name (infer_doc_type name) (split text) []
              builder0 eq_refl) as [H1 H2].
  simpl in H1. unfold flush, trimmed at 2 3. rewrite H2.
  destruct (truthy _); simpl; rewrite H1; [reflexivity |].
  now rewrite app_nil_r.
Qed.

Lemma nonspace_nil_spaces (s : str) :
  filter nonspace s = [] -> forallb isspace s = true.
Proof.
  induction s as [| c s IH]; simpl; [reflexivity |].
  unfold nonspace at 1. destruct (isspace c); simpl; [exact IH | discriminate].
Qed.

Lemma kept_nonspace (R : list (list str)) :
  filter nonspace (concat (filter truthy (map trimmed R))) =
  filter nonspace (glue (concat R)).
Proof.
  induction R as [| r R IH]; simpl; [reflexivity |].
  rewrite glue_app, filter_app, <- IH.
  destruct (truthy (trimmed r)) eqn:Ht; simpl.
  - rewrite filter_app. unfold trimmed. now rewrite strip_nonspace.
  - unfold trimmed in Ht. now rewrite (strip_nil_nonspace _ Ht).
Qed.

Lemma filter_truthy_snoc (l : list str) (x : str) :
  filter truthy (l ++ [x]) = filter truthy l ++ (if truthy x then [x] else []).
Proof. rewrite filter_app. simpl. now destruct (truthy x). Qed.

(** * The chunker *)

(** C1.  For every text and every threshold [size], the lines of the text
    fall into closed runs followed by a remainder: each closed run is a
    stretch of consecutive lines whose character count, newlines included,
    reaches [size] at its last line and not before; the remainder is empty
    or shorter than [size].  The chunks are the trimmed closed runs that
    are not empty after trimming, in order, followed by the trimmed
    remainder exactly when it is not empty after trimming. *)
Theorem chunks_are_trimmed_runs (size : nat) (name text : str) :
  exists (rs : list (list str)) (rem : list str),
    concat rs ++ rem = split text /\
    Forall (closed_run size) rs /\
    (rem = [] \/ length (glue rem) < size) /\
    chunks (build size name text) =
      filter truthy (map trimmed rs) ++
      (if truthy (trimmed rem) then [trimmed rem] else []).
Proof.
  pose proof (runs_from_sound size (split text) [] (open_run_nil size)) as H.
  pose proof (build_runs size name text) as Hb.
  destruct (runs_from size [] (split text)) as [rs rem].
  destruct H as (Hc & Hf & Ho). simpl in Hb, Hc.
  exists rs, rem. repeat split; try assumption.
  destruct rem as [| l rem']; [now left | right].
  apply (Ho (l :: rem') []); [now rewrite app_nil_r | discriminate].
Qed.

(** C2.  The text of the three lines A, B, C, each followed by a newline,
    with threshold 3 gives the chunk of A and B joined by a newline, then
    the chunk C. *)
Theorem boundary_example (name : str) :
  chunks (build 3 name
            (lit "A" ++ [NL] ++ lit "B" ++ [NL] ++ lit "C" ++ [NL]))
  = [lit "A" ++ [NL] ++ lit "B"; lit "C"].
Proof. reflexivity. Qed.

(** C6.  Every chunk is non-empty and equal to its own trimming, so its
    character count is at least one; the chunk indices recorded in the
    metadata, and the indices the ids are built from, are 0, 1, ..., n-1 in
    order, one per chunk. *)
Theorem chunk_invariants (size : nat) (name text : str) :
  let b := build size name text in
  Forall (fun c => strip c = c /\ 1 <= length c) (chunks b) /\
  map chunk_index (metas b) = seq 0 (length (chunks b)) /\
  ids b = map (chunk_id name) (seq 0 (length (chunks b))).
Proof.
  destruct (build_numbered size name text) as (Hi & Hm & Hc).
  simpl. repeat split.
  - eapply Forall_impl; [| exact Hc].
    intros c [Ht Hs]. split; [exact Hs | now apply truthy_length].
  - rewrite Hm, map_map. simpl. apply map_id.
  - exact Hi.
Qed.

(** C10.  The lines of the text fall into consecutive runs, in order, one
    chunk per run that does not trim to nothing; a run without a chunk is
    all white space; and the characters of the chunks that are not white
    space are, in order, those of the text. *)
Theorem chunking_keeps_content (size : nat) (name text : str) :
  (exists runs : list (list str),
     concat runs = split text /\
     chunks (build size name text) = filter truthy (map trimmed runs) /\
     (forall r, In r runs -> truthy (trimmed r) = false ->
                forallb isspace (glue r) = true)) /\
  filter nonspace (concat (chunks (build size name text))) =
  filter nonspace text.
Proof.
  pose proof (runs_from_sound size (split text) [] (open_run_nil size)) as H.
  pose proof (build_runs size name text) as Hb.
  destruct (runs_from size [] (split text)) as [rs rem].
  destruct H as (Hc & _ & _). simpl in Hb, Hc.
  assert (Hk : chunks (build size name text)
               = filter truthy (map trimmed (rs ++ [rem]))).
  { rewrite map_app. simpl map. rewrite filter_truthy_snoc. exact Hb. }
  assert (Hr : concat (rs ++ [rem]) = split text).
  { rewrite concat_app. simpl. now rewrite app_nil_r. }
  split.
  - exists (rs ++ [rem]). repeat split; try assumption.
    intros r _ Ht. apply nonspace_nil_spaces.
    now apply strip_nil_nonspace.
  - rewrite Hk, kept_nonspace, Hr, glue_split, filter_app. simpl.
    now rewrite app_nil_r.
Qed.

Lemma chunks_any_name (size : nat) (name name' text : str) :
  chunks (build size name text) = chunks (build size name' text).
Proof. now rewrite !build_runs. Qed.

Lemma build_ids (size : nat) (name text : str) :
  ids (build size name text) =
  map (chunk_id name) (seq 0 (length (chunks (build size name text)))).
Proof. now destruct (build_numbered size name text) as (Hi & _). Qed.

Lemma build_metas (size : nat) (name text : str) :
  metas (build size name text) =
  map (mkMeta name (infer_doc_type name))
      (seq 0 (length (chunks (build size name text)))).
Proof. now destruct (build_numbered size name text) as (_ & Hm & _). Qed.

Lemma nth_error_map_seq {A : Type} (f : nat -> A) (n i : nat) :
  nth_error (map f (seq 0 n)) i = if i <? n then Some (f i) else None.
Proof.
  destruct (Nat.ltb_spec i n) as [Hlt | Hge].
  - rewrite nth_error_map, nth_error_seq.
    apply Nat.ltb_lt in Hlt. now rewrite Hlt.
  - apply nth_error_None. now rewrite length_map, length_seq.
Qed.

(** C3.  Two runs of the builder on the same threshold, file name and text
    give the same chunk texts and the same ids.  The ids are the file name
    with its dots replaced, an underscore and the position of the chunk:
    the builder reads no store, the chunk texts do not depend on the file
    name, and whatever store the insertion loop runs on and whatever its
    earlier calls did, iteration [i] offers chunk [i] under the id built
    from the file name and [i]. *)
Theorem chunking_deterministic (size : nat) (name text : str) :
  let first_run := build size name text in
  let second_run := build size name text in
  (chunks first_run = chunks second_run /\ ids first_run = ids second_run) /\
  ids first_run = map (chunk_id name) (seq 0 (length (chunks first_run))) /\
  (forall name', chunks (build size name' text) = chunks first_run) /\
  (forall (Store : Type) (add : Store -> str -> str -> meta -> add_result Store)
          (st : inserter Store) (i : nat),
      insert_one add first_run st i =
      match nth_error (chunks first_run) i with
      | Some doc =>
          match add (collection st) (chunk_id name i) doc
                    (mkMeta name (infer_doc_type name) i) with
          | Added s => mkInserter s (S (inserted st)) (printed st)
          | Raised s e =>
              mkInserter s (inserted st) (printed st ++ [warning_line i e])
          end
      | None =>
          mkInserter (collection st) (inserted st)
                     (printed st ++ [warning_line i index_error])
      end).
Proof.
  simpl. repeat split.
  - apply build_ids.
  - intros name'. apply chunks_any_name.
  - intros Store add st i. unfold insert_one.
    rewrite build_ids, build_metas, !nth_error_map_seq.
    destruct (Nat.ltb_spec i (length (chunks (build size name text))))
      as [Hlt | Hge].
    + destruct (nth_error (chunks (build size name text)) i) eqn:E;
        [reflexivity |].
      apply nth_error_None in E. lia.
    + apply nth_error_None in Hge. now rewrite Hge.
Qed.

(** C8.  The file names a.b.txt and a_b.txt differ, yet every index gives
    them the same chunk id, so the same text stored under either name
    yields the same list of ids; a one-line text shows the list is not
    empty. *)
Theorem chunk_id_not_injective :
  let f1 := lit "a.b.txt" in
  let f2 := lit "a_b.txt" in
  f1 <> f2 /\
  (forall i, chunk_id f1 i = chunk_id f2 i) /\
  (forall size text, ids (build size f1 text) = ids (build size f2 text)) /\
  ids (chunk_file f1 (lit "x")) = [lit "a_b_txt_0"] /\
  ids (chunk_file f2 (lit "x")) = [lit "a_b_txt_0"].
Proof.
  simpl. repeat split.
  - discriminate.
  - intros size text. rewrite !build_ids.
    rewrite (chunks_any_name size (lit "a.b.txt") (lit "a_b.txt")).
    apply map_ext. reflexivity.
Qed.

(** ** Edge cases *)

Lemma empty_text_no_chunks (size : nat) (name : str) :
  chunks (build size name []) = [].
Proof.
  unfold build. simpl. unfold step. simpl.
  destruct (size <=? 1); reflexivity.
Qed.

Lemma single_line_chunks (size : nat) (name line : str) :
  ~ In NL line ->
  chunks (build size name line) =
  if truthy (strip line) then [strip line] else [].
Proof.
  intros Hnl. unfold build. rewrite (split_single _ Hnl). simpl.
  unfold step. simpl current.
  replace ([] ++ line ++ [NL]) with (line ++ [NL]) by reflexivity.
  destruct (size <=? length (line ++ [NL])).
  - rewrite (strip_snoc_space _ _ NL_isspace).
    destruct (truthy (strip line)) eqn:Ht; unfold flush; simpl; reflexivity.
  - unfold flush. simpl current.
    rewrite (strip_snoc_space _ _ NL_isspace).
    destruct (truthy (strip line)) eqn:Ht; reflexivity.
Qed.

(** C4, as stated, fails: a line of five blanks is longer than the
    threshold 3 and has no newline, and no chunk comes out of it. *)
Lemma blank_line_counterexample :
  let line := lit "     " in
  ~ In NL line /\ 3 < length line /\
  chunks (build 3 (lit "a.txt") line) = [] /\
  chunks (build 3 (lit "a.txt") line) <> [line].
Proof.
  simpl. repeat split; try lia; try discriminate.
  vm_compute. intuition discriminate.
Qed.

(** C4, amended.  The empty text gives no chunk.  A text that is one line
    longer than the threshold gives that line with the white space around
    it trimmed, whole and as the only chunk, when something is left after
    trimming, and no chunk when the line is all white space. *)
Theorem edge_cases (size : nat) (name line : str)
  (Hline : ~ In NL line) (Hlong : size < length line) :
  chunks (build size name []) = [] /\
  chunks (build size name line) =
    (if truthy (strip line) then [strip line] else []).
Proof.
  split; [apply empty_text_no_chunks | now apply single_line_chunks].
Qed.

(** The amended statement on one line with blanks around it, longer than
    the threshold 10. *)
Lemma edge_cases_witness :
  let line := lit "  the controller shall keep records " in
  ~ In NL line /\ 10 < length line /\
  chunks (build 10 (lit "gdpr.txt") []) = [] /\
  chunks (build 10 (lit "gdpr.txt") line)
  = [lit "the controller shall keep records"].
Proof.
  assert (Hline : ~ In NL (lit "  the controller shall keep records ")).
  { vm_compute. intuition discriminate. }
  assert (Hlong : 10 < length (lit "  the controller shall keep records ")).
  { simpl. lia. }
  split; [exact Hline |]. split; [exact Hlong |].
  exact (edge_cases 10 (lit "gdpr.txt")
           (lit "  the controller shall keep records ") Hline Hlong).
Defined.

(** * Document type inference *)

Lemma startswith_spec (p s : str) :
  startswith p s = true <-> exists v, s = p ++ v.
Proof.
  revert s. induction p as [| a p IH]; intros s; simpl.
  - split; [intros _; now exists s | reflexivity].
  - destruct s as [| b s].
    + split; [discriminate | intros [v H]; discriminate].
    + rewrite andb_true_iff, IH. split.
      * intros [Hab [v ->]]. apply Ascii.eqb_eq in Hab. subst. now exists v.
      * intros [v H]. injection H as -> ->.
        split; [apply Ascii.eqb_refl | now exists v].
Qed.

Lemma contains_spec (p s : str) : contains p s = true <-> occurs p s.
Proof.
  unfold occurs. induction s as [| c s IH].
  - simpl. rewrite orb_false_r, startswith_spec. split.
    + intros [v H]. now exists [], v.
    + intros (u & v & H). destruct u; [now exists v | discriminate].
  - simpl. rewrite orb_true_iff, startswith_spec, IH. split.
    + intros [[v H] | (u & v & H)].
      * now exists [], v.
      * exists (c :: u), v. simpl. now rewrite H.
    + intros (u & v & H). destruct u as [| c' u].
      * left. now exists v.
      * right. injection H as _ H. now exists u, v.
Qed.

Lemma contains_false (p s : str) : contains p s = false <-> ~ occurs p s.
Proof.
  rewrite <- contains_spec. destruct (contains p s); split; congruence.
Qed.

Lemma lower_char_idem (c : ascii) : lower_char (lower_char c) = lower_char c.
Proof. destruct c as [[] [] [] [] [] [] [] []]; reflexivity. Qed.

Lemma lower_idem (s : str) : lower (lower s) = lower s.
Proof.
  unfold lower. rewrite map_map. apply map_ext. apply lower_char_idem.
Qed.

Lemma lower_case_variant (f g : str) :
  Forall2 case_variant f g -> lower f = lower g.
Proof.
  induction 1 as [| a b f g Hab _ IH]; simpl; [reflexivity |].
  now rewrite Hab, IH.
Qed.

(** The four cases of the rule, on any name. *)
Lemma substring_rule_cases (f : str) :
  (occurs (lit "gdpr") f /\ substring_rule f = lit "GDPR") \/
  (~ occurs (lit "gdpr") f /\ occurs (lit "hipaa") f /\
   substring_rule f = lit "HIPAA") \/
  (~ occurs (lit "gdpr") f /\ ~ occurs (lit "hipaa") f /\
   occurs (lit "soc2") f /\ substring_rule f = lit "SOC2") \/
  (~ occurs (lit "gdpr") f /\ ~ occurs (lit "hipaa") f /\
   ~ occurs (lit "soc2") f /\ substring_rule f = lit "General").
Proof.
  unfold substring_rule.
  destruct (contains (lit "gdpr") f) eqn:G.
  { left. split; [now apply contains_spec | reflexivity]. }
  apply contains_false in G.
  destruct (contains (lit "hipaa") f) eqn:H.
  { right; left. repeat split; [exact G | now apply contains_spec]. }
  apply contains_false in H.
  destruct (contains (lit "soc2") f) eqn:S2.
  { right; right; left.
    repeat split; [exact G | exact H | now apply contains_spec]. }
  apply contains_false in S2.
  right; right; right. now repeat split.
Qed.

Lemma infer_doc_type_lower (filename : str) :
  infer_doc_type filename = substring_rule (lower filename).
Proof. reflexivity. Qed.

(** C7, as stated, fails: GDPR.txt holds none of the three keywords as
    written, so the stated rule answers General, and the function answers
    GDPR. *)
Lemma uppercase_name_counterexample :
  let f := lit "GDPR.txt" in
  contains (lit "gdpr") f = false /\
  contains (lit "hipaa") f = false /\
  contains (lit "soc2") f = false /\
  substring_rule f = lit "General" /\
  infer_doc_type f = lit "GDPR" /\
  infer_doc_type f <> substring_rule f.
Proof. simpl. repeat split. discriminate. Qed.

(** C7, amended.  The answer is that of the rule on the lower-cased file
    name, the keywords taken in the order gdpr, hipaa, soc2: GDPR when
    gdpr occurs in the lower-cased name; HIPAA when gdpr does not and hipaa
    does; SOC2 when neither does and soc2 does; General when none occurs. *)
Theorem infer_doc_type_by_keyword (filename : str) :
  let f := lower filename in
  infer_doc_type filename = substring_rule f /\
  ((occurs (lit "gdpr") f /\ infer_doc_type filename = lit "GDPR") \/
   (~ occurs (lit "gdpr") f /\ occurs (lit "hipaa") f /\
    infer_doc_type filename = lit "HIPAA") \/
   (~ occurs (lit "gdpr") f /\ ~ occurs (lit "hipaa") f /\
    occurs (lit "soc2") f /\ infer_doc_type filename = lit "SOC2") \/
   (~ occurs (lit "gdpr") f /\ ~ occurs (lit "hipaa") f /\
    ~ occurs (lit "soc2") f /\ infer_doc_type filename = lit "General")).
Proof.
  cbv zeta. split; [reflexivity |].
  rewrite infer_doc_type_lower. apply substring_rule_cases.
Qed.

Lemma upper_char_variant (c : ascii) : case_variant (upper_char c) c.
Proof.
  unfold case_variant. destruct c as [[] [] [] [] [] [] [] []]; reflexivity.
Qed.

Lemma lower_char_variant (c : ascii) : case_variant (lower_char c) c.
Proof. apply lower_char_idem. Qed.

Lemma map_variant (h : ascii -> ascii) (f : str) :
  (forall c, case_variant (h c) c) -> Forall2 case_variant (map h f) f.
Proof.
  intros Hh. induction f as [| c f IH]; simpl; constructor; auto.
Qed.

Lemma infer_doc_type_variant (f g : str) :
  Forall2 case_variant f g -> infer_doc_type f = infer_doc_type g.
Proof.
  intros H. rewrite !infer_doc_type_lower. now rewrite (lower_case_variant f g H).
Qed.

(** C9.  The answer is one of GDPR, HIPAA, SOC2 and General, which are four
    different texts.  Two file names that differ only in the case of their
    letters get the same answer; so do a name, its lower-cased form and the
    name with its small letters capitalised.  The first keyword that occurs
    in the lower-cased name, in the order gdpr, hipaa, soc2, decides:
    a name with gdpr is GDPR whatever else it holds, and one with hipaa and
    without gdpr is HIPAA whatever else it holds. *)
Theorem infer_doc_type_total_caseless_ordered (f g : str)
  (Hcase : Forall2 case_variant f g) :
  (In (infer_doc_type f) doc_types /\ NoDup doc_types) /\
  (infer_doc_type f = infer_doc_type g /\
   infer_doc_type (lower f) = infer_doc_type f /\
   infer_doc_type (map upper_char f) = infer_doc_type f) /\
  ((occurs (lit "gdpr") (lower f) -> infer_doc_type f = lit "GDPR") /\
   (~ occurs (lit "gdpr") (lower f) -> occurs (lit "hipaa") (lower f) ->
    infer_doc_type f = lit "HIPAA") /\
   (~ occurs (lit "gdpr") (lower f) -> ~ occurs (lit "hipaa") (lower f) ->
    occurs (lit "soc2") (lower f) -> infer_doc_type f = lit "SOC2") /\
   (~ occurs (lit "gdpr") (lower f) -> ~ occurs (lit "hipaa") (lower f) ->
    ~ occurs (lit "soc2") (lower f) -> infer_doc_type f = lit "General")).
Proof.
  pose proof (substring_rule_cases (lower f)) as Hc.
  rewrite <- infer_doc_type_lower in Hc.
  split; [| split].
  - split.
    + unfold doc_types. simpl.
      destruct Hc as [(_ & ->) | [(_ & _ & ->) | [(_ & _ & _ & ->) | (_ & _ & _ & ->)]]];
        tauto.
    + unfold doc_types.
      repeat (constructor; [simpl; intuition discriminate |]). constructor.
  - repeat split.
    + now apply infer_doc_type_variant.
    + apply infer_doc_type_variant, map_variant, lower_char_variant.
    + apply infer_doc_type_variant, map_variant, upper_char_variant.
  - repeat split; intros; 
      destruct Hc as [(? & ?) | [(? & ? & ?) | [(? & ? & ? & ?) | (? & ? & ? & ?)]]];
      tauto.
Qed.

(** Two spellings of one name, holding both hipaa and gdpr. *)
Lemma infer_doc_type_total_caseless_ordered_witness :
  let f := lit "HIPAA_and_GDPR.txt" in
  let g := lit "hipaa_AND_gdpr.TXT" in
  Forall2 case_variant f g /\
  infer_doc_type f = infer_doc_type g /\
  In (infer_doc_type f) doc_types.
Proof.
  assert (Hcase : Forall2 case_variant (lit "HIPAA_and_GDPR.txt")
                          (lit "hipaa_AND_gdpr.TXT")).
  { repeat (constructor; [reflexivity |]). constructor. }
  destruct (infer_doc_type_total_caseless_ordered _ _ Hcase)
    as ((Hin & _) & (Heq & _) & _).
  exact (conj Hcase (conj Heq Hin)).
Defined.

(** * The insertion loop *)

Section InsertionFacts.

Variable Store : Type.
Variable add : Store -> str -> str -> meta -> add_result Store.
Variable b : builder.
Variable s : Store.

Lemma insert_one_entry (st : inserter Store) (i : nat) :
  insert_one add b st i =
  match entry_at b i with
  | Some (id, doc, m) =>
      match add (collection st) id doc m with
      | Added s' => mkInserter s' (S (inserted st)) (printed st)
      | Raised s' e =>
          mkInserter s' (inserted st) (printed st ++ [warning_line i e])
      end
  | None =>
      mkInserter (collection st) (inserted st)
                 (printed st ++ [warning_line i index_error])
  end.
Proof.
  unfold insert_one, entry_at.
  destruct (nth_error (ids b) i), (nth_error (chunks b) i),
    (nth_error (metas b) i); reflexivity.
Qed.

(** The loop after [n] iterations: no iteration is left out, whatever the
    earlier ones did. *)
Lemma loop_after (n : nat) :
  fold_left (insert_one add b) (seq 0 n) (mkInserter s 0 []) =
  mkInserter (store_before add b s n)
             (length (filter (counts add b s) (seq 0 n)))
             (flat_map (warns add b s) (seq 0 n)).
Proof.
  induction n as [| n IH]; [reflexivity |].
  rewrite seq_S, fold_left_app, IH. simpl fold_left.
  rewrite insert_one_entry, filter_app, flat_map_app, length_app.
  simpl. rewrite app_nil_r.
  remember (counts add b s n) as c eqn:Hc.
  remember (warns add b s n) as w eqn:Hw.
  unfold counts, call_at in Hc. unfold warns, call_at in Hw.
  destruct (entry_at b n) as [[[id doc] m] |].
  - destruct (add (store_before add b s n) id doc m); subst c w; simpl;
      rewrite ?app_nil_r; f_equal; lia.
  - subst c w. simpl. f_equal. lia.
Qed.

Lemma counts_but_one (k n : nat) :
  (forall i, i < n -> counts add b s i = negb (i =? k)) ->
  length (filter (counts add b s) (seq 0 n)) = if k <? n then n - 1 else n.
Proof.
  induction n as [| n IH]; intros H; [reflexivity |].
  rewrite seq_S, filter_app, length_app, IH by (intros; apply H; lia).
  simpl. rewrite (H n) by lia.
  destruct (Nat.eqb_spec n k) as [-> | Hne]; simpl.
  - rewrite Nat.ltb_irrefl.
    replace (k <? S k) with true by (symmetry; apply Nat.ltb_lt; lia). lia.
  - destruct (Nat.ltb_spec k n), (Nat.ltb_spec k (S n)); simpl; lia.
Qed.

Lemma warns_but_one (k n : nat) (line : str) :
  warns add b s k = [line] ->
  (forall i, i < n -> i <> k -> warns add b s i = []) ->
  flat_map (warns add b s) (seq 0 n) = if k <? n then [line] else [].
Proof.
  intros Hk. induction n as [| n IH]; intros H; [reflexivity |].
  rewrite seq_S, flat_map_app, IH by (intros; apply H; lia).
  simpl. rewrite app_nil_r.
  destruct (Nat.eq_dec n k) as [-> | Hne].
  - rewrite Nat.ltb_irrefl, Hk.
    replace (k <? S k) with true by (symmetry; apply Nat.ltb_lt; lia).
    reflexivity.
  - rewrite (H n) by lia. rewrite app_nil_r.
    destruct (Nat.ltb_spec k n), (Nat.ltb_spec k (S n)); try reflexivity; lia.
Qed.

End InsertionFacts.

(** C5.  When, in the run of the loop over [n] chunks, the call of [add]
    for chunk [k] raises and the call for every other chunk returns, the
    loop goes through all [n] iterations: every chunk has been handed to
    [add] in order, the count of inserted chunks is [n - 1], and one
    warning is printed, for chunk [k], before the line that reports the
    count. *)
Theorem one_failure_is_isolated (Store : Type)
  (add : Store -> str -> str -> meta -> add_result Store)
  (b : builder) (s s_k : Store) (k : nat) (e : str)
  (Hk : k < length (chunks b))
  (Hfail : call_at add b s k = Some (Raised s_k e))
  (Hothers : forall i, i < length (chunks b) -> i <> k ->
             exists s_i, call_at add b s i = Some (Added s_i)) :
  let r := insert_chunks add b s in
  let n := length (chunks b) in
  inserted r = n - 1 /\
  printed r = [warning_line k e; stored_line (n - 1)] /\
  collection r = store_before add b s n.
Proof.
  cbv zeta. unfold insert_chunks. rewrite loop_after. simpl.
  assert (Hc : forall i, i < length (chunks b) ->
               counts add b s i = negb (i =? k)).
  { intros i Hi. unfold counts.
    destruct (Nat.eqb_spec i k) as [-> | Hne].
    - now rewrite Hfail.
    - destruct (Hothers i Hi Hne) as [s_i ->]. reflexivity. }
  assert (Hw : forall i, i < length (chunks b) -> i <> k ->
               warns add b s i = []).
  { intros i Hi Hne. unfold warns.
    destruct (Hothers i Hi Hne) as [s_i ->]. reflexivity. }
  assert (Hwk : warns add b s k = [warning_line k e]).
  { unfold warns. now rewrite Hfail. }
  rewrite (counts_but_one Store add b s k _ Hc).
  rewrite (warns_but_one Store add b s k _ _ Hwk Hw).
  apply Nat.ltb_lt in Hk. rewrite Hk. now repeat split.
Qed.

(** Three chunks on the sample store, the second one rejected: the first
    and the third are on the shelf, under the ids of positions 0 and 2. *)
Lemma one_failure_is_isolated_witness :
  let b := build 3 (lit "a.txt")
             (lit "ok1" ++ [NL] ++ lit "bad" ++ [NL] ++ lit "ok2") in
  let r := insert_chunks shelf_add b [] in
  (1 < length (chunks b) /\
   call_at shelf_add b [] 1
   = Some (Raised [(lit "a_txt_0", lit "ok1",
                    mkMeta (lit "a.txt") (lit "General") 0)]
                  (lit "rejected")) /\
   (forall i, i < length (chunks b) -> i <> 1 ->
      exists s_i, call_at shelf_add b [] i = Some (Added s_i))) /\
  inserted r = 2 /\
  printed r = [lit "  Warning: skipped chunk 1: rejected";
               lit "  Stored 2 chunks"] /\
  collection r =
    [(lit "a_txt_0", lit "ok1", mkMeta (lit "a.txt") (lit "General") 0);
     (lit "a_txt_2", lit "ok2", mkMeta (lit "a.txt") (lit "General") 2)].
Proof.
  set (b := build 3 (lit "a.txt")
              (lit "ok1" ++ [NL] ++ lit "bad" ++ [NL] ++ lit "ok2")).
  assert (Hk : 1 < length (chunks b)) by (simpl; lia).
  assert (Hfail : call_at shelf_add b [] 1
                  = Some (Raised [(lit "a_txt_0", lit "ok1",
                                   mkMeta (lit "a.txt") (lit "General") 0)]
                                 (lit "rejected"))) by reflexivity.
  assert (Hothers : forall i, i < length (chunks b) -> i <> 1 ->
            exists s_i, call_at shelf_add b [] i = Some (Added s_i)).
  { intros i Hi Hne. simpl in Hi.
    destruct i as [| [| [| i]]]; try lia; eexists; reflexivity. }
  destruct (one_failure_is_isolated shelf shelf_add b [] _ 1 _ Hk Hfail Hothers)
    as (H1 & H2 & H3).
  cbv zeta. split; [exact (conj Hk (conj Hfail Hothers)) |].
  split; [exact H1 |]. split; [exact H2 | exact H3].
Defined.

(** * Further properties of the chunk identifiers *)

Lemma uint_no_underscore (d : Decimal.uint) :
  ~ In "_"%char (lit (NilEmpty.string_of_uint d)).
Proof.
  induction d; simpl; intros H; try (destruct H as [H | H];
    [discriminate | now apply IHd]). exact H.
Qed.

Lemma str_of_nat_no_underscore (n : nat) : ~ In "_"%char (str_of_nat n).
Proof. apply uint_no_underscore. Qed.

Lemma str_of_nat_inj (i j : nat) : str_of_nat i = str_of_nat j -> i = j.
Proof.
  unfold str_of_nat, lit. intros H.
  apply (f_equal string_of_list_ascii) in H.
  rewrite !string_of_list_ascii_of_string in H.
  apply (f_equal NilEmpty.uint_of_string) in H.
  rewrite !NilEmpty.usu in H. injection H as H.
  apply (f_equal Nat.of_uint) in H.
  now rewrite !DecimalNat.Unsigned.of_to in H.
Qed.

(** Two texts cut at the last occurrence of [x] agree part by part. *)
Lemma cut_at_last (x : ascii) (l1 l2 r1 r2 : str) :
  ~ In x r1 -> ~ In x r2 ->
  l1 ++ x :: r1 = l2 ++ x :: r2 -> l1 = l2 /\ r1 = r2.
Proof.
  intros H1 H2. revert l2.
  induction l1 as [| a l1 IH]; intros [| c l2] H; simpl in H.
  - injection H as H. now split.
  - injection H as _ H. exfalso. apply H1. rewrite H.
    apply in_or_app. right. now left.
  - injection H as _ H. exfalso. apply H2. rewrite <- H.
    apply in_or_app. right. now left.
  - injection H as -> H. destruct (IH l2 H) as [-> ->]. now split.
Qed.

Lemma chunk_id_inj (f1 f2 : str) (i j : nat) :
  chunk_id f1 i = chunk_id f2 j ->
  replace "."%char "_"%char f1 = replace "."%char "_"%char f2 /\ i = j.
Proof.
  unfold chunk_id. simpl. intros H.
  apply cut_at_last in H; try apply str_of_nat_no_underscore.
  destruct H as [H1 H2]. split; [exact H1 | now apply str_of_nat_inj].
Qed.

Lemma NoDup_map_inj {A B : Type} (f : A -> B) (l : list A) :
  (forall x y, f x = f y -> x = y) -> NoDup l -> NoDup (map f l).
Proof.
  intros Hf. induction 1 as [| x l Hx _ IH]; simpl; constructor; [| exact IH].
  intros Hin. apply in_map_iff in Hin. destruct Hin as (y & Hy & Hyl).
  apply Hf in Hy. now subst.
Qed.

(** X1.  Within one file no two chunks get the same id. *)
Theorem ids_distinct (size : nat) (name text : str) :
  NoDup (ids (build size name text)).
Proof.
  rewrite build_ids. apply NoDup_map_inj; [| apply seq_NoDup].
  intros i j H. now apply chunk_id_inj in H.
Qed.

(** X2.  Two chunk ids are the same text exactly when the two file names
    agree once their dots are replaced by underscores and the two indices
    are equal: the index can always be read back from an id, the file name
    only up to that replacement. *)
Theorem chunk_id_collision (f1 f2 : str) (i j : nat) :
  chunk_id f1 i = chunk_id f2 j <->
  replace "."%char "_"%char f1 = replace "."%char "_"%char f2 /\ i = j.
Proof.
  split; [apply chunk_id_inj |].
  intros [H ->]. unfold chunk_id. now rewrite H.
Qed.

(** X3.  The three lists handed to the insertion loop have the same
    length, and every metadata record carries the name of the file and the
    document type inferred from that name. *)
Theorem metadata_of_file (size : nat) (name text : str) :
  let b := build size name text in
  length (ids b) = length (chunks b) /\
  length (metas b) = length (chunks b) /\
  Forall (fun m => filename m = name /\
                   document_type m = infer_doc_type name) (metas b).
Proof.
  cbv zeta. rewrite build_ids, build_metas.
  rewrite !length_map, !length_seq. repeat split.
  apply Forall_forall. intros m Hm. apply in_map_iff in Hm.
  destruct Hm as (i & <- & _). now split.
Qed.

(** * Further properties of the chunker *)

Lemma build_nonspace (size : nat) (name text : str) :
  filter nonspace (concat (chunks (build size name text))) =
  filter nonspace text.
Proof.
  pose proof (runs_from_sound size (split text) [] (open_run_nil size)) as H.
  pose proof (build_runs size name text) as Hb.
  destruct (runs_from size [] (split text)) as [rs rem].
  destruct H as (Hc & _ & _). simpl in Hb, Hc.
  rewrite <- filter_truthy_snoc in Hb.
  change [trimmed rem] with (map trimmed [rem]) in Hb.
  rewrite <- map_app in Hb.
  rewrite Hb, kept_nonspace, concat_app. simpl. rewrite app_nil_r, Hc.
  rewrite glue_split, filter_app. simpl. now rewrite app_nil_r.
Qed.

Lemma spaces_nonspace_nil (s : str) :
  forallb isspace s = true -> filter nonspace s = [].
Proof.
  induction s as [| c s IH]; simpl; [reflexivity |].
  unfold nonspace at 1. destruct (isspace c); simpl; [exact IH | discriminate].
Qed.

Lemma lstrip_fixed_head (c : str) :
  lstrip c = c -> c <> [] -> isspace (hd NL c) = false.
Proof.
  intros H Hne. destruct (lstrip_head c) as [E | (h & t & E & Hh)].
  - congruence.
  - rewrite H in E. now rewrite E.
Qed.

Lemma trimmed_ends (c : str) :
  strip c = c -> c <> [] ->
  isspace (hd NL c) = false /\ isspace (last c NL) = false.
Proof.
  intros H Hne. split.
  - apply lstrip_fixed_head; [| exact Hne].
    rewrite <- H. apply strip_lstrip_fixed.
  - assert (Hr : rstrip c = c).
    { rewrite <- H. unfold strip. apply rstrip_idem. }
    unfold rstrip in Hr. apply (f_equal (@rev ascii)) in Hr.
    rewrite rev_involutive in Hr.
    assert (Hrev : rev c <> []).
    { intros E. apply Hne. rewrite <- (rev_involutive c), E. reflexivity. }
    pose proof (lstrip_fixed_head (rev c) Hr Hrev) as Hh.
    destruct (rev c) as [| h t] eqn:E; [congruence |].
    apply (f_equal (@rev ascii)) in E. rewrite rev_involutive in E.
    simpl in E. rewrite E, last_last. exact Hh.
Qed.

Lemma build_chunks_trimmed (size : nat) (name text : str) :
  Forall (fun c => truthy c = true /\ strip c = c)
         (chunks (build size name text)).
Proof. now destruct (build_numbered size name text) as (_ & _ & H). Qed.

(** X4.  No chunk begins or ends with a white-space character. *)
Theorem chunk_ends_not_space (size : nat) (name text : str) :
  Forall (fun c => isspace (hd NL c) = false /\ isspace (last c NL) = false)
         (chunks (build size name text)).
Proof.
  eapply Forall_impl; [| apply build_chunks_trimmed].
  intros c [Ht Hs]. apply trimmed_ends; [exact Hs | now apply truthy_true].
Qed.

(** X5.  A text gives no chunk at all exactly when every character of it
    is white space (the empty text included). *)
Theorem no_chunk_iff_blank (size : nat) (name text : str) :
  chunks (build size name text) = [] <-> forallb isspace text = true.
Proof.
  pose proof (build_nonspace size name text) as Hn.
  split; intros H.
  - rewrite H in Hn. simpl in Hn. now apply nonspace_nil_spaces.
  - rewrite (spaces_nonspace_nil _ H) in Hn.
    pose proof (build_chunks_trimmed size name text) as Hc.
    destruct (chunks (build size name text)) as [| c cs]; [reflexivity |].
    exfalso. inversion Hc as [| ? ? [Ht Hs] _]; subst.
    apply truthy_true in Ht.
    destruct (trimmed_ends c Hs Ht) as [Hh _].
    destruct c as [| h t]; [congruence |].
    simpl in Hn, Hh. unfold nonspace at 1 in Hn. rewrite Hh in Hn.
    discriminate.
Qed.

Lemma lstrip_length (s : str) : length (lstrip s) <= length s.
Proof.
  induction s as [| c s IH]; simpl; [lia |].
  destruct (isspace c); simpl; lia.
Qed.

Lemma strip_length (s : str) : length (strip s) <= length s.
Proof.
  unfold strip, rstrip. rewrite length_rev.
  pose proof (lstrip_length (rev (lstrip s))) as H1.
  pose proof (lstrip_length s) as H2. rewrite length_rev in H1. lia.
Qed.

Lemma trimmed_snoc_length (p : list str) (l : str) :
  length (trimmed (p ++ [l])) <= length (glue p) + length l.
Proof.
  unfold trimmed. rewrite glue_snoc, app_assoc.
  rewrite (strip_snoc_space _ _ NL_isspace).
  pose proof (strip_length (glue p ++ l)) as H. rewrite length_app in H. lia.
Qed.

Lemma closed_run_bound (size : nat) (r : list str) :
  closed_run size r ->
  exists l, In l r /\ length (trimmed r) <= size + length l.
Proof.
  intros (Hne & _ & Hmin).
  destruct (exists_last Hne) as (p & l & ->).
  exists l. split; [apply in_or_app; right; now left |].
  pose proof (trimmed_snoc_length p l) as Hle.
  destruct p as [| l0 p].
  - change (length (glue [])) with 0 in Hle. lia.
  - assert (Hp : length (glue (l0 :: p)) < size).
    { apply (Hmin (l0 :: p) [l]); [reflexivity | discriminate | discriminate]. }
    lia.
Qed.

Lemma open_run_bound (size : nat) (rem : list str) :
  open_run size rem -> truthy (trimmed rem) = true ->
  exists l, In l rem /\ length (trimmed rem) <= size + length l.
Proof.
  intros Ho Ht. destruct rem as [| l rem]; [discriminate |].
  exists l. split; [now left |].
  assert (H : length (glue (l :: rem)) < size).
  { apply (Ho (l :: rem) []); [now rewrite app_nil_r | discriminate]. }
  pose proof (strip_length (glue (l :: rem))) as Hs. unfold trimmed. lia.
Qed.

(** X6.  No chunk is longer than the threshold plus the length of a line
    of the text: for every chunk there is a line such that the chunk has at
    most [size] characters more than that line. *)
Theorem chunk_length_bound (size : nat) (name text : str) :
  Forall (fun c => exists l, In l (split text) /\
                             length c <= size + length l)
         (chunks (build size name text)).
Proof.
  pose proof (runs_from_sound size (split text) [] (open_run_nil size)) as H.
  pose proof (build_runs size name text) as Hb.
  destruct (runs_from size [] (split text)) as [rs rem].
  destruct H as (Hc & Hf & Ho). simpl in Hb, Hc.
  rewrite Hb. apply Forall_app. split.
  - apply Forall_forall. intros c Hin.
    apply filter_In in Hin. destruct Hin as [Hin _].
    apply in_map_iff in Hin. destruct Hin as (r & <- & Hr).
    rewrite Forall_forall in Hf.
    destruct (closed_run_bound size r (Hf r Hr)) as (l & Hl & Hle).
    exists l. split; [| exact Hle].
    rewrite <- Hc. apply in_or_app. left.
    apply in_concat. now exists r.
  - destruct (truthy (trimmed rem)) eqn:Ht; [| constructor].
    constructor; [| constructor].
    destruct (open_run_bound size rem Ho Ht) as (l & Hl & Hle).
    exists l. split; [| exact Hle].
    rewrite <- Hc. apply in_or_app. now right.
Qed.

Lemma closed_runs_length (size : nat) (rs : list (list str)) :
  Forall (closed_run size) rs -> length rs <= length (concat rs).
Proof.
  induction 1 as [| r rs (Hne & _) _ IH]; simpl; [lia |].
  rewrite length_app. destruct r; [congruence | simpl; lia].
Qed.

(** X7.  There are never more chunks than lines. *)
Theorem chunk_count_bound (size : nat) (name text : str) :
  length (chunks (build size name text)) <= length (split text).
Proof.
  pose proof (runs_from_sound size (split text) [] (open_run_nil size)) as H.
  pose proof (build_runs size name text) as Hb.
  destruct (runs_from size [] (split text)) as [rs rem].
  destruct H as (Hc & Hf & _). simpl in Hb, Hc.
  rewrite Hb, <- Hc, !length_app.
  pose proof (filter_length_le truthy (map trimmed rs)) as H1.
  rewrite length_map in H1.
  pose proof (closed_runs_length size rs Hf) as H2.
  assert (H3 : length (if truthy (trimmed rem) then [trimmed rem] else [])
               <= length rem).
  { destruct rem; simpl; [reflexivity |].
    destruct (truthy _); simpl; lia. }
  lia.
Qed.

Lemma trimmed_split (text : str) : trimmed (split text) = strip text.
Proof.
  unfold trimmed. rewrite glue_split. apply strip_snoc_space, NL_isspace.
Qed.

Lemma glue_length_pos (l : str) (ls : list str) :
  1 <= length (glue (l :: ls)).
Proof. rewrite glue_cons, length_app. simpl. lia. Qed.

Lemma runs_from_short (size : nat) (lines acc : list str) :
  length (glue (acc ++ lines)) <= size ->
  runs_from size acc lines = ([], acc ++ lines) \/
  runs_from size acc lines = ([acc ++ lines], []).
Proof.
  revert acc. induction lines as [| l ls IH]; intros acc H; simpl.
  - left. now rewrite app_nil_r.
  - replace (acc ++ l :: ls) with ((acc ++ [l]) ++ ls) in *
      by (now rewrite <- app_assoc).
    destruct (size <=? length (glue (acc ++ [l]))) eqn:E.
    + apply Nat.leb_le in E. destruct ls as [| l' ls].
      * right. simpl. now rewrite app_nil_r.
      * exfalso. rewrite glue_app, length_app in H.
        pose proof (glue_length_pos l' ls). lia.
    + now apply IH.
Qed.

(** X8.  A text shorter than the threshold is never cut: it gives its own
    trimmed text as the single chunk, or no chunk when it is all white
    space. *)
Theorem short_text_one_chunk (size : nat) (name text : str)
  (Hshort : length text < size) :
  chunks (build size name text) =
  if truthy (strip text) then [strip text] else [].
Proof.
  rewrite build_runs.
  assert (H : length (glue ([] ++ split text)) <= size).
  { simpl. rewrite glue_split, length_app. simpl. lia. }
  destruct (runs_from_short size (split text) [] H) as [-> | ->]; simpl.
  - now rewrite trimmed_split.
  - rewrite trimmed_split. now destruct (truthy (strip text)).
Qed.

(** A text of two lines under the default threshold of 150. *)
Lemma short_text_one_chunk_witness :
  let text := lit " Art. 5" ++ [NL] ++ lit "Data shall be kept safe." ++ [NL] in
  length text < CHUNK_SIZE /\
  chunks (chunk_file (lit "gdpr.txt") text)
  = [lit "Art. 5" ++ [NL] ++ lit "Data shall be kept safe."].
Proof.
  assert (H : length (lit " Art. 5" ++ [NL]
                      ++ lit "Data shall be kept safe." ++ [NL]) < CHUNK_SIZE).
  { unfold CHUNK_SIZE. simpl. lia. }
  split; [exact H |].
  exact (short_text_one_chunk CHUNK_SIZE (lit "gdpr.txt") _ H).
Defined.

Lemma runs_from_lines (size : nat) (lines : list str) :
  size <= 1 -> runs_from size [] lines = (map (fun l => [l]) lines, []).
Proof.
  intros H. induction lines as [| l ls IH]; simpl; [reflexivity |].
  pose proof (glue_length_pos l []) as Hp.
  destruct (Nat.leb_spec size (length (glue [l]))) as [_ | Hlt]; [| lia].
  now rewrite IH.
Qed.

Lemma trimmed_line (l : str) : trimmed [l] = strip l.
Proof.
  unfold trimmed, glue. simpl. rewrite app_nil_r.
  apply strip_snoc_space, NL_isspace.
Qed.

(** X9.  With a threshold of 0 or 1 every line closes its own chunk: the
    chunks are the lines of the text, trimmed, without those that are
    empty after trimming. *)
Theorem tiny_threshold_splits_lines (size : nat) (name text : str)
  (Htiny : size <= 1) :
  chunks (build size name text) = filter truthy (map strip (split text)).
Proof.
  rewrite build_runs, (runs_from_lines size _ Htiny). simpl.
  rewrite app_nil_r, map_map. f_equal. apply map_ext, trimmed_line.
Qed.

(** Threshold 1 on a text with a blank line and blanks around a word. *)
Lemma tiny_threshold_splits_lines_witness :
  1 <= 1 /\
  chunks (build 1 (lit "a.txt")
            (lit "alpha" ++ [NL] ++ [NL] ++ lit "  beta " ++ [NL]))
  = [lit "alpha"; lit "beta"].
Proof.
  split; [lia |].
  exact (tiny_threshold_splits_lines 1 (lit "a.txt")
           (lit "alpha" ++ [NL] ++ [NL] ++ lit "  beta " ++ [NL])
           (le_n 1)).
Defined.

Lemma split_snoc_NL (text : str) : split (text ++ [NL]) = split text ++ [[]].
Proof.
  induction text as [| c s IH]; simpl; [reflexivity |].
  rewrite IH. destruct (Ascii.eqb c NL); [reflexivity |].
  destruct (split s) as [| l ls] eqn:E; [now destruct (split_not_nil s) |].
  reflexivity.
Qed.

Lemma flush_step_blank (size : nat) (name doc_type : str) (b : builder) :
  let b1 := flush name doc_type (step size name doc_type b []) in
  let b2 := flush name doc_type b in
  chunks b1 = chunks b2 /\ ids b1 = ids b2 /\ metas b1 = metas b2.
Proof.
  cbv zeta. unfold step. simpl app.
  destruct (size <=? length (current b ++ [NL])).
  - rewrite (strip_snoc_space _ _ NL_isspace).
    unfold flush at 2 4 6.
    destruct (truthy (strip (current b))) eqn:Ht;
      unfold flush; simpl; now repeat split.
  - unfold flush. simpl current.
    rewrite (strip_snoc_space _ _ NL_isspace).
    destruct (truthy (strip (current b))); now repeat split.
Qed.

(** X10.  A newline added at the end of a text changes nothing: the
    chunks, the ids and the metadata are those of the text without it. *)
Theorem trailing_newline_ignored (size : nat) (name text : str) :
  let b1 := build size name (text ++ [NL]) in
  let b2 := build size name text in
  chunks b1 = chunks b2 /\ ids b1 = ids b2 /\ metas b1 = metas b2.
Proof.
  cbv zeta. unfold build. rewrite split_snoc_NL, fold_left_app. simpl.
  apply flush_step_blank.
Qed.

(** * Further properties of the insertion loop *)

Lemma tally {Store : Type}
  (add : Store -> str -> str -> meta -> add_result Store)
  (b : builder) (s : Store) (l : list nat) :
  length (filter (counts add b s) l) + length (flat_map (warns add b s) l)
  = length l.
Proof.
  induction l as [| i l IH]; simpl; [reflexivity |].
  rewrite length_app. unfold counts at 1, warns at 1.
  destruct (call_at add b s i) as [[s' | s' e] |]; simpl; lia.
Qed.

Lemma insert_chunks_tally {Store : Type}
  (add : Store -> str -> str -> meta -> add_result Store)
  (b : builder) (s : Store) :
  inserted (insert_chunks add b s) + length (printed (insert_chunks add b s))
  = length (chunks b) + 1 /\
  inserted (insert_chunks add b s) <= length (chunks b).
Proof.
  unfold insert_chunks. rewrite loop_after. simpl.
  pose proof (tally add b s (seq 0 (length (chunks b)))) as H.
  rewrite length_seq in H. rewrite length_app. simpl. lia.
Qed.

(** X11.  Whatever [add] does, every chunk is accounted for once: it is
    either counted as inserted or reported by one warning line, so the
    count and the number of printed lines add up to the number of chunks
    and the closing line; the count never exceeds the number of chunks,
    and the last line printed reports the count. *)
Theorem every_chunk_accounted {Store : Type}
  (add : Store -> str -> str -> meta -> add_result Store)
  (b : builder) (s : Store) :
  let r := insert_chunks add b s in
  inserted r + length (printed r) = length (chunks b) + 1 /\
  inserted r <= length (chunks b) /\
  last (printed r) [] = stored_line (inserted r).
Proof.
  cbv zeta. destruct (insert_chunks_tally add b s) as [H1 H2].
  repeat split; [exact H1 | exact H2 |].
  unfold insert_chunks. simpl. apply last_last.
Qed.

Lemma build_entry_at (size : nat) (name text : str) (i : nat) :
  i < length (chunks (build size name text)) ->
  exists doc,
    entry_at (build size name text) i =
    Some (chunk_id name i, doc, mkMeta name (infer_doc_type name) i).
Proof.
  intros Hi. unfold entry_at.
  rewrite build_ids, build_metas, !nth_error_map_seq.
  apply Nat.ltb_lt in Hi. rewrite Hi. apply Nat.ltb_lt in Hi.
  destruct (nth_error (chunks (build size name text)) i) as [doc |] eqn:E.
  - now exists doc.
  - apply nth_error_None in E. lia.
Qed.

Lemma filter_all {A : Type} (f : A -> bool) (l : list A) :
  (forall x, In x l -> f x = true) -> filter f l = l.
Proof.
  induction l as [| x l IH]; intros H; simpl; [reflexivity |].
  rewrite (H x) by now left. f_equal. apply IH. intros y Hy. apply H. now right.
Qed.

Lemma flat_map_none {A B : Type} (f : A -> list B) (l : list A) :
  (forall x, In x l -> f x = []) -> flat_map f l = [].
Proof.
  induction l as [| x l IH]; intros H; simpl; [reflexivity |].
  rewrite (H x) by now left. apply IH. intros y Hy. apply H. now right.
Qed.

Lemma insert_chunks_all {Store : Type}
  (add : Store -> str -> str -> meta -> add_result Store)
  (Hnever : forall s id doc m, exists s', add s id doc m = Added s')
  (size : nat) (name text : str) (s : Store) :
  let b := build size name text in
  inserted (insert_chunks add b s) = length (chunks b) /\
  printed (insert_chunks add b s) = [stored_line (length (chunks b))].
Proof.
  cbv zeta. unfold insert_chunks. rewrite loop_after. simpl.
  assert (Hcall : forall i, In i (seq 0 (length (chunks (build size name text)))) ->
            exists s', call_at add (build size name text) s i = Some (Added s')).
  { intros i Hi. apply in_seq in Hi. unfold call_at.
    destruct (build_entry_at size name text i) as (doc & ->); [lia |].
    destruct (Hnever (store_before add (build size name text) s i)
                (chunk_id name i) doc
                (mkMeta name (infer_doc_type name) i)) as [s' ->].
    now exists s'. }
  rewrite filter_all, flat_map_none.
  - now rewrite length_seq.
  - intros i Hi. unfold warns. now destruct (Hcall i Hi) as [s' ->].
  - intros i Hi. unfold counts. now destruct (Hcall i Hi) as [s' ->].
Qed.

(** X12.  When [add] never raises, every chunk of the file is inserted:
    the count is the number of chunks, no warning is printed, and the
    store is what the calls of [add] for all the chunks, in order, leave. *)
Theorem all_inserted_when_add_succeeds {Store : Type}
  (add : Store -> str -> str -> meta -> add_result Store)
  (size : nat) (name text : str) (s : Store)
  (Hnever : forall s id doc m, exists s', add s id doc m = Added s') :
  let b := build size name text in
  let r := insert_chunks add b s in
  inserted r = length (chunks b) /\
  printed r = [stored_line (length (chunks b))] /\
  collection r = store_before add b s (length (chunks b)).
Proof.
  cbv zeta.
  destruct (insert_chunks_all add Hnever size name text s) as [H1 H2].
  repeat split; [exact H1 | exact H2 |].
  unfold insert_chunks. now rewrite loop_after.
Qed.

(** Two chunks put on the empty shelf. *)
Lemma all_inserted_when_add_succeeds_witness :
  let b := build 3 (lit "soc2.txt") (lit "one" ++ [NL] ++ lit "two") in
  let r := insert_chunks shelf_put b [] in
  (forall s id doc m, exists s', shelf_put s id doc m = Added s') /\
  inserted r = 2 /\
  printed r = [lit "  Stored 2 chunks"] /\
  collection r =
    [(lit "soc2_txt_0", lit "one", mkMeta (lit "soc2.txt") (lit "SOC2") 0);
     (lit "soc2_txt_1", lit "two", mkMeta (lit "soc2.txt") (lit "SOC2") 1)].
Proof.
  assert (Hnever : forall s id doc m,
             exists s', shelf_put s id doc m = Added s').
  { intros s id doc m. eexists. reflexivity. }
  destruct (all_inserted_when_add_succeeds shelf_put 3 (lit "soc2.txt")
              (lit "one" ++ [NL] ++ lit "two") [] Hnever) as (H1 & H2 & H3).
  cbv zeta. split; [exact Hnever |].
  split; [exact H1 |]. split; [exact H2 | exact H3].
Defined.

(** * The loop over the files *)

Section FilesFacts.

Variable Store : Type.
Variable add : Store -> str -> str -> meta -> add_result Store.

Lemma chunk_total_cons (name text : str) (fs : list (str * str)) :
  chunk_total ((name, text) :: fs) =
  length (chunks (chunk_file name text)) + chunk_total fs.
Proof. reflexivity. Qed.

Lemma process_file_total (st : run Store) (name text : str) :
  total_chunks (process_file add st (name, text)) =
  total_chunks st + inserted (insert_chunks add (chunk_file name text) (db st)).
Proof. reflexivity. Qed.

Lemma process_file_tally (st : run Store) (file : str * str) :
  let st' := process_file add st file in
  let n := length (chunks (chunk_file (fst file) (snd file))) in
  total_chunks st' + length (output st')
  = total_chunks st + length (output st) + 3 + n /\
  total_chunks st <= total_chunks st' <= total_chunks st + n.
Proof.
  destruct file as [name text]. cbv zeta. unfold process_file.
  cbn [total_chunks output fst snd].
  destruct (insert_chunks_tally add (chunk_file name text) (db st))
    as [H1 H2].
  rewrite !length_app. cbn [length]. lia.
Qed.

Lemma fold_process_tally (files : list (str * str)) (st : run Store) :
  let st' := fold_left (process_file add) files st in
  total_chunks st' + length (output st')
  = total_chunks st + length (output st) + 3 * length files
    + chunk_total files /\
  total_chunks st <= total_chunks st' <= total_chunks st + chunk_total files.
Proof.
  revert st. induction files as [| f fs IH]; intros st; simpl.
  - unfold chunk_total. simpl. lia.
  - destruct (process_file_tally st f) as [H1 H2].
    destruct (IH (process_file add st f)) as [H3 H4].
    unfold chunk_total in *. simpl. cbv zeta in *. lia.
Qed.

Lemma fold_process_all (files : list (str * str)) (st : run Store) :
  (forall s id doc m, exists s', add s id doc m = Added s') ->
  total_chunks (fold_left (process_file add) files st)
  = total_chunks st + chunk_total files.
Proof.
  intros Hnever. revert st.
  induction files as [| [name text] fs IH]; intros st; cbn [fold_left].
  - unfold chunk_total. simpl. lia.
  - rewrite IH, process_file_total. unfold chunk_file at 1.
    destruct (insert_chunks_all add Hnever CHUNK_SIZE name text (db st))
      as [-> _].
    rewrite chunk_total_cons. unfold chunk_file. lia.
Qed.

End FilesFacts.

(** X13.  Over any list of files and whatever [add] does, the final
    [total_chunks] never exceeds the number of chunks the files give, and
    every chunk of every file is either counted in it or reported by a
    warning line: the count and the number of lines printed add up to
    three lines per file plus one per chunk. *)
Theorem total_chunks_accounted {Store : Type}
  (add : Store -> str -> str -> meta -> add_result Store)
  (files : list (str * str)) (s : Store) :
  let r := process_files add files s in
  total_chunks r <= chunk_total files /\
  total_chunks r + length (output r) = 3 * length files + chunk_total files.
Proof.
  cbv zeta. unfold process_files.
  destruct (fold_process_tally Store add files (mkRun s 0 [])) as [H1 H2].
  simpl in H1, H2. split; lia.
Qed.

(** X14.  When [add] never raises, the final [total_chunks] is the number
    of chunks of all the files. *)
Theorem total_chunks_when_add_succeeds {Store : Type}
  (add : Store -> str -> str -> meta -> add_result Store)
  (files : list (str * str)) (s : Store)
  (Hnever : forall s id doc m, exists s', add s id doc m = Added s') :
  total_chunks (process_files add files s) = chunk_total files.
Proof.
  unfold process_files.
  now rewrite (fold_process_all Store add files (mkRun s 0 []) Hnever).
Qed.

(** Two short files on the empty shelf: one chunk each. *)
Lemma total_chunks_when_add_succeeds_witness :
  let files := [(lit "gdpr.txt", lit "Art. 5" ++ [NL]);
                (lit "notes.txt", lit "keep" ++ [NL] ++ lit "logs")] in
  (forall s id doc m, exists s', shelf_put s id doc m = Added s') /\
  total_chunks (process_files shelf_put files []) = 2.
Proof.
  assert (Hnever : forall s id doc m,
             exists s', shelf_put s id doc m = Added s').
  { intros s id doc m. eexists. reflexivity. }
  split; [exact Hnever |].
  exact (total_chunks_when_add_succeeds shelf_put
           [(lit "gdpr.txt", lit "Art. 5" ++ [NL]);
            (lit "notes.txt", lit "keep" ++ [NL] ++ lit "logs")] [] Hnever).
Defined.

(** * Further properties of the document type *)

Lemma lower_app (u v : str) : lower (u ++ v) = lower u ++ lower v.
Proof. apply map_app. Qed.

Lemma occurs_context (p s u v : str) : occurs p s -> occurs p (u ++ s ++ v).
Proof.
  intros (a & c & ->). exists (u ++ a), (c ++ v).
  now rewrite <- !app_assoc.
Qed.

Lemma occurs_lower_context (p f u v : str) :
  occurs p (lower f) -> occurs p (lower (u ++ f ++ v)).
Proof. intros H. rewrite !lower_app. now apply occurs_context. Qed.

(** X15.  A name classified GDPR stays GDPR whatever is written before
    and after it (a directory, a prefix, an extension). *)
Theorem gdpr_survives_context (f u v : str)
  (Hgdpr : infer_doc_type f = lit "GDPR") :
  infer_doc_type (u ++ f ++ v) = lit "GDPR".
Proof.
  assert (Hocc : occurs (lit "gdpr") (lower f)).
  { pose proof (substring_rule_cases (lower f)) as Hc.
    rewrite <- infer_doc_type_lower, Hgdpr in Hc.
    destruct Hc as [(H & _) | [(_ & _ & H) | [(_ & _ & _ & H) | (_ & _ & _ & H)]]];
      [exact H | discriminate | discriminate | discriminate]. }
  apply (occurs_lower_context _ _ u v) in Hocc.
  pose proof (substring_rule_cases (lower (u ++ f ++ v))) as Hc.
  rewrite <- infer_doc_type_lower in Hc.
  destruct Hc as [(_ & H) | [(H & _) | [(H & _) | (H & _)]]];
    [exact H | contradiction | contradiction | contradiction].
Qed.

(** A GDPR name inside a longer one that also holds hipaa. *)
Lemma gdpr_survives_context_witness :
  infer_doc_type (lit "GDPR") = lit "GDPR" /\
  infer_doc_type (lit "hipaa_" ++ lit "GDPR" ++ lit "_2024.txt") = lit "GDPR".
Proof.
  split; [reflexivity |].
  exact (gdpr_survives_context (lit "GDPR") (lit "hipaa_") (lit "_2024.txt")
           eq_refl).
Defined.

(** X16.  When a name is classified General, so is every part of it: no
    stretch of a General name is GDPR, HIPAA or SOC2. *)
Theorem general_name_parts (f u v : str)
  (Hgen : infer_doc_type (u ++ f ++ v) = lit "General") :
  infer_doc_type f = lit "General".
Proof.
  pose proof (substring_rule_cases (lower (u ++ f ++ v))) as Hc.
  rewrite <- infer_doc_type_lower, Hgen in Hc.
  destruct Hc as [(_ & H) | [(_ & _ & H) | [(_ & _ & _ & H) | (G & H & S2 & _)]]];
    try discriminate.
  pose proof (substring_rule_cases (lower f)) as Hf.
  rewrite <- infer_doc_type_lower in Hf.
  destruct Hf as [(O & _) | [(_ & O & _) | [(_ & _ & O & _) | (_ & _ & _ & E)]]];
    [| | | exact E]; exfalso;
    apply (occurs_lower_context _ _ u v) in O; contradiction.
Qed.

(** The stem of a General file name. *)
Lemma general_name_parts_witness :
  infer_doc_type (lit "docs/" ++ lit "policy" ++ lit ".txt") = lit "General" /\
  infer_doc_type (lit "policy") = lit "General".
Proof.
  split; [reflexivity |].
  exact (general_name_parts (lit "policy") (lit "docs/") (lit ".txt") eq_refl).
Defined.

(** * The pending text of the line loop *)

(** X17.  After any number of lines the text still pending in [current]
    is empty or shorter than the threshold: the loop never carries a text
    that has reached the threshold into the next line. *)
Theorem pending_below_threshold (size : nat) (name doc_type : str)
  (lines : list str) :
  let b := fold_left (step size name doc_type) lines builder0 in
  current b = [] \/ length (current b) < size.
Proof.
  cbv zeta.
  destruct (loop_runs size name doc_type lines [] builder0 eq_refl)
    as [_ Hcur].
  pose proof (runs_from_sound size lines [] (open_run_nil size)) as H.
  destruct (runs_from size [] lines) as [rs rem].
  destruct H as (_ & _ & Ho). simpl in Hcur. rewrite Hcur.
  destruct rem as [| l rem]; [now left | right].
  apply (Ho (l :: rem) []); [now rewrite app_nil_r | discriminate].
Qed.
